(** * Webhook gateway (src/server.ts): queue, retry and history engine

    A shallow embedding of the in-memory stores [queue] and
    [processedEvents], of [validateSignature] and [processQueue], and of
    the route handlers that read or write the two stores, followed by the
    properties of the engine. *)

From Stdlib Require Import ZArith.
From stdpp Require Import base list strings gmap.

Open Scope string_scope.
Open Scope list_scope.

(** ** Configuration and types *)

Definition SECRET : string := "super-secret-signature".

(** A JSON value, for the [data: any] field of a payload. *)
#[local] Unset Elimination Schemes.
Inductive Json : Type :=
| JNull
| JBool (b : bool)
| JNum (z : Z)
| JStr (s : string)
| JArr (items : list Json)
| JObj (fields : list (string * Json)).
#[local] Set Elimination Schemes.

(** [interface WebhookPayload] *)
Record WebhookPayload : Type := {
  event : string;
  data : Json;
}.

(** [interface WebhookQueueItem] *)
Record WebhookQueueItem : Type := {
  payload : WebhookPayload;
  retries : nat;
  addedAt : Z;
}.

(** The union type ["success" | "failed"]. *)
Inductive Status : Type := success | failed.

(** [interface ProcessedEvent]; the source field [event] is [pe_event]
    here, the name [event] being taken by [WebhookPayload]. *)
Record ProcessedEvent : Type := {
  pe_event : string;
  status : Status;
  timestamp : Z;
}.

Definition MAX_RETRIES : nat := 3.

(** The lines [processQueue] writes to the console, one constructor per
    call site, carrying the values interpolated into the message. *)
Inductive ConsoleLine : Type :=
| Log_processing (ev : string)               (* console.log   "[QUEUE] Processing event: ..." *)
| Err_failed (ev : string) (attempt : nat)   (* console.error "[QUEUE] Failed to process ..., attempt n/3" *)
| Err_dropping (p : WebhookPayload).         (* console.error "[QUEUE] Dropping failed webhook ..." *)

(** The module-level stores. [console] is the output stream, oldest line
    first.  Every entry of [queue] is an object of its own (the only
    insertion is the push of a fresh object literal in the /webhook
    handler), so the in-place [item.retries++] is an update of the list
    at the position the item occupies. *)
Record State : Type := {
  queue : list WebhookQueueItem;
  processedEvents : list ProcessedEvent;
  console : list ConsoleLine;
}.

Definition init : State :=
  {| queue := []; processedEvents := []; console := [] |}.

(** ** What the host supplies *)

(** [deliver k item] tells whether the body of the [try] block, run by
    the callback at index [k] on [item], gets past the forwarding step
    ([true]) or throws there ([false]).  The source leaves that step as a
    comment ("In production: await forwardToService(item.payload)"), so
    in the program as written nothing throws: [reference_deliver]. *)
Definition Deliver : Type := nat -> WebhookQueueItem -> bool.

Definition reference_deliver : Deliver := fun _ _ => true.

(** The readings and library calls of one handler run. *)
Record Host : Type := {
  (* Date.now() where the handler builds the queue item *)
  now : Z;
  (* Date.now() inside the callback that forEach runs at index k *)
  Date_now : nat -> Z;
  (* jwt.verify(token, secret): true when it returns, false when it throws *)
  jwt_verify : string -> string -> bool;
  (* jwt.sign({test: true, iat}, secret, {expiresIn: "1h"}) *)
  jwt_sign : Z -> string -> string;
  (* JSON.stringify(body ?? {}) *)
  JSON_stringify : WebhookPayload -> string;
  (* the page served at / *)
  dashboard : string;
}.

(** ** Array methods used by the source *)

Section Arrays.
Context {A : Type}.

(** [a.push(x)] *)
Definition push (x : A) (a : list A) : list A := a ++ [x].

(** [a.unshift(x)] *)
Definition unshift (x : A) (a : list A) : list A := x :: a.

(** [a.pop()]: drops the last element, if any. *)
Definition pop (a : list A) : list A := take (length a - 1) a.

(** [a.splice(index, 1)] *)
Definition splice1 (index : nat) (a : list A) : list A := delete index a.

(** [a.slice(0, n)] *)
Definition slice0 (n : nat) (a : list A) : list A := take n a.
End Arrays.

(** [Array.prototype.forEach] over an array held in a store: the
    length is read once, before the first call; the indices
    [0 .. len-1] are then visited in order, and an index is passed to
    the callback only if the array, as it is at that moment, still has
    an element there. *)
Section ForEach.
Context {Store A : Type} (arr : Store -> list A) (cb : A -> nat -> Store -> Store).

(** [n] indices are still to be visited, the next one being [k]. *)
Fixpoint forEach_from (n k : nat) (s : Store) : Store :=
  match n with
  | O => s
  | S n' =>
      forEach_from n' (S k)
        (match arr s !! k with
         | Some x => cb x k s
         | None => s
         end)
  end.

Definition forEach (s : Store) : Store := forEach_from (length (arr s)) 0 s.
End ForEach.

(** ** Helper functions of the server *)

(** [validateSignature]: an empty signature ([EmptyString], the only
    falsy string) is rejected before the token is looked at; otherwise
    the verdict is jwt.verify's. *)
Definition validateSignature (host : Host) (_payload signature : string) : bool :=
  if decide (signature = EmptyString) then false
  else if jwt_verify host signature SECRET then true else false.

Definition with_queue (q : list WebhookQueueItem) (st : State) : State :=
  {| queue := q; processedEvents := processedEvents st; console := console st |}.

Definition with_processedEvents (h : list ProcessedEvent) (st : State) : State :=
  {| queue := queue st; processedEvents := h; console := console st |}.

Definition console_write (l : ConsoleLine) (st : State) : State :=
  {| queue := queue st; processedEvents := processedEvents st;
     console := console st ++ [l] |}.

(** The history update of the success path: unshift, then the size
    check with its pop. *)
Definition record_success (ev : string) (t : Z) (h : list ProcessedEvent)
  : list ProcessedEvent :=
  let h1 := unshift {| pe_event := ev; status := success; timestamp := t |} h in
  if (20 <? length h1)%nat then pop h1 else h1.

(** The history update of the drop path: unshift only. *)
Definition record_failed (ev : string) (t : Z) (h : list ProcessedEvent)
  : list ProcessedEvent :=
  unshift {| pe_event := ev; status := failed; timestamp := t |} h.

Definition bump (item : WebhookQueueItem) : WebhookQueueItem :=
  {| payload := payload item; retries := S (retries item);
     addedAt := addedAt item |}.

(** The arrow function passed to [queue.forEach] in [processQueue]. *)
Definition callback (deliver : Deliver) (host : Host)
    (item : WebhookQueueItem) (index : nat) (st : State) : State :=
  let st := console_write (Log_processing (event (payload item))) st in
  if deliver index item then
    (* try block *)
    let st := with_processedEvents
                (record_success (event (payload item)) (Date_now host index)
                   (processedEvents st)) st in
    with_queue (splice1 index (queue st)) st
  else
    (* catch block *)
    let item := bump item in
    let st := with_queue (<[index := item]> (queue st)) st in
    let st := console_write (Err_failed (event (payload item)) (retries item)) st in
    if (MAX_RETRIES <=? retries item)%nat then
      let st := console_write (Err_dropping (payload item)) st in
      let st := with_processedEvents
                  (record_failed (event (payload item)) (Date_now host index)
                     (processedEvents st)) st in
      with_queue (splice1 index (queue st)) st
    else st.

Definition processQueue (deliver : Deliver) (host : Host) (st : State) : State :=
  forEach queue (callback deliver host) st.

(** ** Routes *)

Record QueueStatusItem : Type := {
  qs_event : string;
  qs_retries : nat;
}.

Inductive Body : Type :=
| Webhook_ok (ok : bool) (message : string)
| Error_body (error : string)
| Token_body (token : string)
| Queue_status_body (queueLength processedCount maxRetries : nat)
    (items : list QueueStatusItem) (recentEvents : list ProcessedEvent)
| Health_body (health_status : string) (queue_length queue_processed : nat)
| Html_body (page : string).

Record Response : Type := {
  http_status : nat;
  body : Body;
}.

(** The object literal pushed by the /webhook handler. *)
Definition new_item (host : Host) (body : WebhookPayload) : WebhookQueueItem :=
  {| payload := body; retries := 0; addedAt := now host |}.

(** The handler of POST /webhook.  It runs on bodies that passed the
    route's schema, hence the type of [body]; [headers] is the plain
    object of request headers. *)
Definition post_webhook (deliver : Deliver) (host : Host)
    (headers : gmap string string) (body : WebhookPayload) (st : State)
  : Response * State :=
  let signature := default EmptyString (headers !! "x-signature") in
  let rawBody := JSON_stringify host body in
  if negb (validateSignature host rawBody signature) then
    ({| http_status := 401; body := Error_body "Invalid signature" |}, st)
  else
    let st := with_queue (push (new_item host body) (queue st)) st in
    let st := processQueue deliver host st in
    ({| http_status := 200;
        body := Webhook_ok true "Webhook received and processed" |}, st).

(** GET /generate-test-token *)
Definition get_generate_test_token (host : Host) (st : State) : Response * State :=
  ({| http_status := 200; body := Token_body (jwt_sign host (now host) SECRET) |}, st).

(** GET /queue-status *)
Definition get_queue_status (st : State) : Response * State :=
  ({| http_status := 200;
      body := Queue_status_body
                (length (queue st))
                (length (processedEvents st))
                MAX_RETRIES
                (map (fun item => {| qs_event := event (payload item);
                                     qs_retries := retries item |}) (queue st))
                (slice0 10 (processedEvents st)) |}, st).

(** GET /health; the [uptime] and [timestamp] fields of the body, two
    readings of the process clock, are left out. *)
Definition get_health (st : State) : Response * State :=
  ({| http_status := 200;
      body := Health_body "ok" (length (queue st)) (length (processedEvents st)) |}, st).

(** GET / *)
Definition get_dashboard (host : Host) (st : State) : Response * State :=
  ({| http_status := 200; body := Html_body (dashboard host) |}, st).

Inductive Request : Type :=
| POST_webhook (headers : gmap string string) (body : WebhookPayload)
| GET_generate_test_token
| GET_queue_status
| GET_health
| GET_dashboard.

(** One request served to completion: handlers run one at a time, and
    none of them yields before it returns. *)
Definition handle (deliver : Deliver) (host : Host) (req : Request) (st : State)
  : Response * State :=
  match req with
  | POST_webhook headers body => post_webhook deliver host headers body st
  | GET_generate_test_token => get_generate_test_token host st
  | GET_queue_status => get_queue_status st
  | GET_health => get_health st
  | GET_dashboard => get_dashboard host st
  end.

(** The store after a sequence of requests, each with its own host
    readings. *)
Fixpoint run (deliver : Deliver) (steps : list (Host * Request)) (st : State) : State :=
  match steps with
  | [] => st
  | (host, req) :: steps' => run deliver steps' (handle deliver host req st).2
  end.

(** ** Observations used in the statements *)

(** The events of the processing attempts found in a console output:
    the callback writes one [Log_processing] line each time it is run
    on an item, before anything else. *)
Definition attempts (out : list ConsoleLine) : list string :=
  omap (fun l => match l with Log_processing ev => Some ev | _ => None end) out.


Definition recentEvents_of (r : Response) : option (list ProcessedEvent) :=
  match body r with
  | Queue_status_body _ _ _ _ evs => Some evs
  | _ => None
  end.

(** Whether the /webhook handler lets a request through. *)
Definition admitted (host : Host) (headers : gmap string string)
    (body : WebhookPayload) : bool :=
  validateSignature host (JSON_stringify host body)
    (default EmptyString (headers !! "x-signature")).

(** The requests of a sequence that /webhook lets through, each as the
    event of its body and the clock reading of the callback at index 0;
    and their number. *)
Fixpoint admitted_events (steps : list (Host * Request)) : list (string * Z) :=
  match steps with
  | [] => []
  | (host, POST_webhook headers body) :: steps' =>
      (if admitted host headers body then [(event body, Date_now host 0)] else [])
        ++ admitted_events steps'
  | _ :: steps' => admitted_events steps'
  end.

Definition admissions (steps : list (Host * Request)) : nat :=
  length (admitted_events steps).

(** Consecutive calls of [processQueue], one host reading each. *)
Fixpoint passes (deliver : Deliver) (hosts : list Host) (st : State) : State :=
  match hosts with
  | [] => st
  | host :: hosts' => passes deliver hosts' (processQueue deliver host st)
  end.

(** The stores as they can be found between two requests. *)
Inductive between_requests (deliver : Deliver) : State -> Prop :=
| br_init : between_requests deliver init
| br_handle host req st :
    between_requests deliver st ->
    between_requests deliver (handle deliver host req st).2.

(** The stores as they can be found at any moment: between two
    requests, or inside the /webhook handler once the item is pushed and
    [j] indices of the pass have been gone through ([j = 0]: just
    pushed).  Inside one run of the callback the queue changes only at
    its last statement, so these are all the values the queue takes. *)
Inductive reachable (deliver : Deliver) : State -> Prop :=
| reach_between st :
    between_requests deliver st -> reachable deliver st
| reach_in_pass host headers body st j :
    between_requests deliver st ->
    admitted host headers body = true ->
    j <= length (queue st) + 1 ->
    reachable deliver
      (forEach_from queue (callback deliver host) j 0
         (with_queue (push (new_item host body) (queue st)) st)).

(** The history after the success path has run for each of [evs] in
    turn, given as event and clock reading, first recorded first. *)
Definition success_outcome (e : string * Z) : ProcessedEvent :=
  {| pe_event := e.1; status := success; timestamp := e.2 |}.

Definition record_all (evs : list (string * Z)) (h : list ProcessedEvent)
  : list ProcessedEvent :=
  foldl (fun h e => record_success e.1 e.2 h) h evs.

(** The elements at positions 0, 2, 4, ... of a list. *)
Fixpoint every_other {A : Type} (l : list A) : list A :=
  match l with
  | x :: _ :: l' => x :: every_other l'
  | _ => l
  end.

(** A pass that attempts each item present at its start once, in queue
    order, and nothing else: the attempts it adds to the console are
    the events of the queue it started from. *)
Definition visits_each_item_once (deliver : Deliver) (host : Host) (st : State) : Prop :=
  attempts (console (processQueue deliver host st))
  = (attempts (console st) ++ map (fun item => event (payload item)) (queue st)).




(** ** Further observations *)

(** The number of items a console output reports as dropped: the catch
    branch writes one [Err_dropping] line each time it removes an item. *)
Definition drops (out : list ConsoleLine) : nat :=
  length (omap (fun l => match l with Err_dropping p => Some p | _ => None end) out).

(** What a pass never touches in a queue item. *)
Definition entry (item : WebhookQueueItem) : WebhookPayload * Z :=
  (payload item, addedAt item).

(** More fields of the response bodies. *)
Definition queueLength_of (r : Response) : option nat :=
  match body r with
  | Queue_status_body n _ _ _ _ => Some n
  | _ => None
  end.

Definition maxRetries_of (r : Response) : option nat :=
  match body r with
  | Queue_status_body _ _ n _ _ => Some n
  | _ => None
  end.

Definition items_of (r : Response) : option (list QueueStatusItem) :=
  match body r with
  | Queue_status_body _ _ _ items _ => Some items
  | _ => None
  end.

Definition token_of (r : Response) : option string :=
  match body r with
  | Token_body token => Some token
  | _ => None
  end.

(** Whether a step of a sequence is a /webhook request that is let
    through. *)
Definition admitted_step (step : Host * Request) : bool :=
  match step.2 with
  | POST_webhook headers body => admitted step.1 headers body
  | _ => false
  end.

(** ** The account of a pass *)





(** ** Sample inputs *)

(** A host whose clock stands at 1700000000000 ms and advances by one
    per callback, and whose jwt.verify accepts the token "good". *)
Definition sample_host : Host :=
  {| now := 1700000000000;
     Date_now := fun k => (1700000000000 + Z.of_nat k)%Z;
     jwt_verify := fun token _ => bool_decide (token = "good");
     jwt_sign := fun _ _ => "good";
     JSON_stringify := fun _ => "{}";
     dashboard := "<!DOCTYPE html>" |}.

Definition sample_payload (ev : string) : WebhookPayload :=
  {| event := ev; data := JObj [] |}.

Definition sample_item (ev : string) (r : nat) : WebhookQueueItem :=
  {| payload := sample_payload ev; retries := r; addedAt := 1700000000000 |}.

Definition signed : gmap string string := {[ "x-signature" := "good" ]}.
Definition forged : gmap string string := {[ "x-signature" := "bad" ]}.

Definition always_fails : Deliver := fun _ _ => false.

(** A host whose jwt.verify accepts whatever it is given. *)
Definition trusting_host : Host :=
  {| now := 1700000000000;
     Date_now := fun k => (1700000000000 + Z.of_nat k)%Z;
     jwt_verify := fun _ _ => true;
     jwt_sign := fun _ _ => "good";
     JSON_stringify := fun _ => "{}";
     dashboard := "<!DOCTYPE html>" |}.

(** Deliveries that fail for the items of one event and succeed for the
    others. *)
Definition fails_for (ev : string) : Deliver :=
  fun _ item => negb (bool_decide (event (payload item) = ev)).

(** A signed POST /webhook request carrying the event [ev]. *)
Definition post (ev : string) : Host * Request :=
  (sample_host, POST_webhook signed (sample_payload ev)).

(** A history filled to its capacity. *)
Definition full_history : list ProcessedEvent :=
  replicate 20 {| pe_event := "user.created"; status := success;
                  timestamp := 1699999999000 |}.

(** * Properties *)

(** ** forEach and the callback *)

Section ForEachFacts.
Context {Store A : Type} (arr : Store -> list A) (cb : A -> nat -> Store -> Store).

Lemma forEach_from_add a b k s :
  forEach_from arr cb (a + b) k s
  = forEach_from arr cb b (k + a) (forEach_from arr cb a k s).
Proof.
  revert k s. induction a as [|a IH]; intros k s; simpl.
  - by rewrite Nat.add_0_r.
  - rewrite IH. f_equal. lia.
Qed.

(** Past the end of the array nothing is run any more, as long as the
    callback does not make the array longer. *)
Lemma forEach_from_past_end n k s :
  (forall x i s', length (arr (cb x i s')) <= length (arr s')) ->
  length (arr s) <= k ->
  forEach_from arr cb n k s = s.
Proof.
  intros Hcb. revert k s. induction n as [|n IH]; intros k s Hk; simpl; [done|].
  rewrite (lookup_ge_None_2 _ _ Hk). apply IH. lia.
Qed.
End ForEachFacts.

Lemma delete_insert_same {A : Type} (l : list A) (i : nat) (x : A) :
  delete i (<[i := x]> l) = delete i l.
Proof.
  revert i. induction l as [|y l IH]; intros [|i]; simpl; try done.
  by rewrite IH.
Qed.

(** The three ways through the callback, each as one store update. *)
Lemma callback_success deliver host item index st :
  deliver index item = true ->
  callback deliver host item index st
  = {| queue := delete index (queue st);
       processedEvents :=
         record_success (event (payload item)) (Date_now host index)
           (processedEvents st);
       console := console st ++ [Log_processing (event (payload item))] |}.
Proof. intros Hd. unfold callback. by rewrite Hd. Qed.

Lemma callback_failed_keep deliver host item index st :
  deliver index item = false ->
  S (retries item) < MAX_RETRIES ->
  callback deliver host item index st
  = {| queue := <[index := bump item]> (queue st);
       processedEvents := processedEvents st;
       console := (console st ++ [Log_processing (event (payload item))])
                    ++ [Err_failed (event (payload item)) (S (retries item))] |}.
Proof.
  intros Hd Hlt. unfold callback. rewrite Hd. cbn zeta.
  destruct (Nat.leb_spec MAX_RETRIES (retries (bump item))) as [Hle|_].
  - simpl in Hle. lia.
  - reflexivity.
Qed.

Lemma callback_failed_drop deliver host item index st :
  deliver index item = false ->
  MAX_RETRIES <= S (retries item) ->
  callback deliver host item index st
  = {| queue := delete index (queue st);
       processedEvents :=
         {| pe_event := event (payload item); status := failed;
            timestamp := Date_now host index |} :: processedEvents st;
       console := ((console st ++ [Log_processing (event (payload item))])
                     ++ [Err_failed (event (payload item)) (S (retries item))])
                    ++ [Err_dropping (payload item)] |}.
Proof.
  intros Hd Hge. unfold callback. rewrite Hd. cbn zeta.
  destruct (Nat.leb_spec MAX_RETRIES (retries (bump item))) as [_|Hlt].
  - unfold with_queue, with_processedEvents, console_write, splice1,
      record_failed, unshift. simpl. by rewrite delete_insert_same.
  - simpl in Hlt. lia.
Qed.

Lemma length_delete_le {A : Type} (l : list A) (i : nat) :
  length (delete i l) <= length l.
Proof. revert i. induction l as [|y l IH]; intros [|i]; simpl; auto with lia.
  specialize (IH i). lia. Qed.

(** The callback never makes the queue longer. *)
Lemma callback_queue_length deliver host item index st :
  length (queue (callback deliver host item index st)) <= length (queue st).
Proof.
  unfold callback. destruct (deliver index item); cbn zeta.
  - simpl. apply length_delete_le.
  - destruct (MAX_RETRIES <=? retries (bump item))%nat; simpl.
    + unfold splice1. etrans; [apply length_delete_le|]. by rewrite length_insert.
    + by rewrite length_insert.
Qed.

(** A pass over a queue of one item is one run of the callback on it. *)
Lemma processQueue_single deliver host item h out :
  processQueue deliver host {| queue := [item]; processedEvents := h; console := out |}
  = callback deliver host item 0
      {| queue := [item]; processedEvents := h; console := out |}.
Proof. reflexivity. Qed.

(** A pass seen from the moment [j] of its indices have been gone
    through: what [forEach_from _ _ j 0] has produced is carried on from
    index [j]. *)
Lemma processQueue_from_index deliver host st j :
  j <= length (queue st) ->
  processQueue deliver host st
  = forEach_from queue (callback deliver host) (length (queue st) - j) j
      (forEach_from queue (callback deliver host) j 0 st).
Proof.
  intros Hj. unfold processQueue, forEach.
  replace (length (queue st)) with (j + (length (queue st) - j)) at 1 by lia.
  by rewrite forEach_from_add.
Qed.


(** ** The /webhook and /queue-status handlers *)

Lemma validateSignature_false_iff host raw signature :
  validateSignature host raw signature = false
  <-> signature = EmptyString \/ jwt_verify host signature SECRET = false.
Proof.
  unfold validateSignature. destruct (decide (signature = EmptyString)) as [->|Hne].
  - split; auto.
  - destruct (jwt_verify host signature SECRET); split; intros H; auto.
    destruct H as [H|H]; [done|discriminate].
Qed.

(** C4: a POST /webhook request whose x-signature header is missing, or
    whose token jwt.verify refuses, is answered 401 with the body
    {error: "Invalid signature"}, and the stores (queue, history and
    console) are exactly as before: nothing is enqueued and no pass
    runs. *)
Theorem post_webhook_rejects_bad_signature
    deliver host (headers : gmap string string) body st :
  headers !! "x-signature" = None
  \/ (exists token, headers !! "x-signature" = Some token
                    /\ jwt_verify host token SECRET = false) ->
  post_webhook deliver host headers body st
  = ({| http_status := 401; body := Error_body "Invalid signature" |}, st).
Proof.
  intros Hsig. unfold post_webhook. cbn zeta.
  assert (validateSignature host (JSON_stringify host body)
            (default EmptyString (headers !! "x-signature")) = false) as ->; [|done].
  apply validateSignature_false_iff.
  destruct Hsig as [->|(token & -> & Hv)]; simpl; auto.
Qed.

Lemma post_webhook_rejects_bad_signature_witness :
  (forged !! "x-signature" = Some "bad"
   /\ jwt_verify sample_host "bad" SECRET = false)
  /\ post_webhook always_fails sample_host forged (sample_payload "user.created")
       {| queue := [sample_item "order.completed" 1];
          processedEvents := []; console := [] |}
     = ({| http_status := 401; body := Error_body "Invalid signature" |},
        {| queue := [sample_item "order.completed" 1];
           processedEvents := []; console := [] |}).
Proof.
  split; [split; reflexivity|].
  apply post_webhook_rejects_bad_signature.
  right. exists "bad". split; reflexivity.
Defined.

(** C9: GET /queue-status returns the stores as it found them, and the
    recentEvents field of its body is the first ten entries of the
    history (all of it when it has fewer), so at most ten. *)
Theorem get_queue_status_read_only st :
  (get_queue_status st).2 = st
  /\ exists evs,
      recentEvents_of (get_queue_status st).1 = Some evs
      /\ evs = take 10 (processedEvents st)
      /\ length evs <= 10.
Proof.
  split; [reflexivity|].
  exists (take 10 (processedEvents st)). split; [reflexivity|]. split; [reflexivity|].
  rewrite length_take. lia.
Qed.

(** ** The history *)

Lemma record_success_take ev t h :
  length h <= 20 ->
  record_success ev t h
  = take 20 ({| pe_event := ev; status := success; timestamp := t |} :: h).
Proof.
  intros Hlen. unfold record_success, unshift, pop. cbn zeta.
  destruct (Nat.ltb_spec 20
              (length ({| pe_event := ev; status := success; timestamp := t |} :: h)))
    as [Hgt|Hle].
  - simpl in Hgt. assert (length h = 20) as Hh by lia.
    simpl length. rewrite Hh. reflexivity.
  - symmetry. apply take_ge. lia.
Qed.

Lemma record_success_length ev t h :
  length h <= 20 ->
  length (record_success ev t h) = Nat.min (S (length h)) 20.
Proof.
  intros Hlen. rewrite record_success_take by done.
  rewrite length_take, length_cons. lia.
Qed.

Lemma record_success_Forall (P : ProcessedEvent -> Prop) ev t h :
  P {| pe_event := ev; status := success; timestamp := t |} ->
  Forall P h ->
  Forall P (record_success ev t h).
Proof.
  intros Hp Hh. unfold record_success, unshift, pop. cbn zeta.
  destruct (_ <? _)%nat; [apply Forall_take|]; by constructor.
Qed.

Lemma record_all_take evs h :
  length h <= 20 ->
  record_all evs h = take 20 (rev (map success_outcome evs) ++ h).
Proof.
  revert h. induction evs as [|e evs IH]; intros h Hlen; simpl.
  - symmetry. by apply take_ge.
  - unfold record_all in *. simpl. rewrite IH.
    + rewrite record_success_take by done.
      rewrite <- app_assoc. simpl.
      fold (success_outcome e).
      destruct (decide (20 <= length (rev (map success_outcome evs)))) as [Hge|Hlt].
      * by rewrite !take_app_le by lia.
      * rewrite !take_app_ge by lia. f_equal.
        set (n := 20 - length (rev (map success_outcome evs))).
        assert (n <= 20) by lia.
        destruct n as [|n]; [done|]. simpl. f_equal.
        rewrite take_take. f_equal. lia.
    + rewrite record_success_length by done. lia.
Qed.

Lemma record_all_last_20 evs h :
  length evs = 25 ->
  length h <= 20 ->
  record_all evs h = rev (map success_outcome (drop 5 evs)).
Proof.
  intros Hevs Hh. rewrite record_all_take by done.
  rewrite take_app_le by (rewrite length_rev, length_map; lia).
  rewrite <- (take_drop 5 evs) at 1.
  rewrite map_app, rev_app_distr.
  rewrite take_app_length'; [done|].
  rewrite length_rev, length_map, length_drop. lia.
Qed.

(** C8: when 25 successes are recorded, one after the other, into a
    history that holds no more than 20 entries, the history ends up with
    exactly 20 entries: the last 20 of the 25, the latest first; the
    first 5 of the 25, and whatever the history held before, are gone. *)
Theorem record_25_successes evs h :
  length evs = 25 ->
  length h <= 20 ->
  length (record_all evs h) = 20
  /\ record_all evs h = rev (map success_outcome (drop 5 evs)).
Proof.
  intros Hevs Hh. rewrite record_all_last_20 by done. split; [|done].
  rewrite length_rev, length_map, length_drop. lia.
Qed.

Lemma record_25_successes_witness :
  let evs := map (fun n => ("payment.received", Z.of_nat n)) (seq 1 25) in
  (length evs = 25 /\ length (@nil ProcessedEvent) <= 20)
  /\ length (record_all evs []) = 20
  /\ record_all evs [] = rev (map success_outcome (drop 5 evs)).
Proof.
  cbv zeta. split; [split; [reflexivity|simpl; lia]|].
  apply record_25_successes; [reflexivity|simpl; lia].
Defined.

(** ** The server as written: every delivery attempt succeeds *)

Lemma post_webhook_reference host headers body st :
  queue st = [] ->
  post_webhook reference_deliver host headers body st
  = if admitted host headers body then
      ({| http_status := 200;
          body := Webhook_ok true "Webhook received and processed" |},
       {| queue := [];
          processedEvents :=
            record_success (event body) (Date_now host 0) (processedEvents st);
          console := console st ++ [Log_processing (event body)] |})
    else ({| http_status := 401; body := Error_body "Invalid signature" |}, st).
Proof.
  intros Hq. unfold post_webhook, admitted. cbn zeta.
  destruct (validateSignature _ _ _); simpl; [|done].
  destruct st as [q h out]. simpl in Hq. subst q. reflexivity.
Qed.

Lemma handle_reference host req st :
  queue st = [] ->
  (handle reference_deliver host req st).2
  = match req with
    | POST_webhook headers body =>
        if admitted host headers body then
          {| queue := [];
             processedEvents :=
               record_success (event body) (Date_now host 0) (processedEvents st);
             console := console st ++ [Log_processing (event body)] |}
        else st
    | _ => st
    end.
Proof.
  intros Hq. destruct req as [headers body| | | |]; simpl; try done.
  rewrite post_webhook_reference by done. by destruct (admitted _ _ _).
Qed.

(** What holds between two requests. *)
Lemma between_requests_reference st :
  between_requests reference_deliver st ->
  queue st = []
  /\ length (processedEvents st) <= 20
  /\ Forall (fun o => status o = success) (processedEvents st)
  /\ Forall (fun l => exists ev, l = Log_processing ev) (console st).
Proof.
  induction 1 as [|host req st _ (Hq & Hlen & Hs & Hc)].
  - simpl. repeat split; auto with lia.
  - rewrite handle_reference by done.
    destruct req as [headers body| | | |]; try by repeat split.
    destruct (admitted _ _ _); [|by repeat split]. simpl.
    split; [done|]. split; [|split].
    + rewrite record_success_length by done. lia.
    + by apply record_success_Forall.
    + apply Forall_app. split; [done|]. constructor; [by eexists|constructor].
Qed.

(** What holds at any moment. *)
Lemma reachable_reference st :
  reachable reference_deliver st ->
  length (queue st) <= 1
  /\ Forall (fun item => retries item = 0) (queue st)
  /\ Forall (fun o => status o = success) (processedEvents st)
  /\ Forall (fun l => exists ev, l = Log_processing ev) (console st).
Proof.
  destruct 1 as [st Hbr|host headers body st j Hbr Hadm Hj].
  - apply between_requests_reference in Hbr as (Hq & _ & Hs & Hc).
    rewrite Hq. simpl. repeat split; auto with lia.
  - apply between_requests_reference in Hbr as (Hq & Hlen & Hs & Hc).
    destruct st as [q h out]. simpl in *. subst q. simpl in Hj.
    destruct j as [|[|j]]; [| |lia]; simpl.
    + repeat split; auto. constructor; [done|constructor].
    + repeat split; auto with lia.
      * by apply record_success_Forall.
      * apply Forall_app. split; [done|]. constructor; [by eexists|constructor].
Qed.

(** C6: in the server as written, where no delivery attempt fails, the
    catch branch never runs: at every moment every entry of the history
    has status "success" (none has "failed"), every item of the queue
    has retries = 0, and the console holds no line of the catch branch. *)
Theorem reference_never_fails st :
  reachable reference_deliver st ->
  Forall (fun o => status o = success) (processedEvents st)
  /\ Forall (fun o => status o <> failed) (processedEvents st)
  /\ Forall (fun item => retries item = 0) (queue st)
  /\ Forall (fun l => exists ev, l = Log_processing ev) (console st).
Proof.
  intros Hr. apply reachable_reference in Hr as (_ & Hq & Hs & Hc).
  repeat split; auto.
  eapply Forall_impl; [exact Hs|]. intros o Ho. rewrite Ho. discriminate.
Qed.

(** C7: in the server as written the queue never holds more than one
    item, and it is empty whenever a /webhook handler has returned
    (each admission pushes one item onto an empty queue and the pass
    that follows removes it). *)
Theorem reference_queue_at_most_one st :
  reachable reference_deliver st ->
  length (queue st) <= 1
  /\ forall host headers body,
      between_requests reference_deliver st ->
      queue st = []
      /\ queue (post_webhook reference_deliver host headers body st).2 = [].
Proof.
  intros Hr. split; [by apply reachable_reference|].
  intros host headers body Hbr.
  destruct (between_requests_reference _ Hbr) as (Hq & _). split; [done|].
  apply (between_requests_reference
           (handle reference_deliver host (POST_webhook headers body) st).2).
  by constructor.
Qed.

Lemma reference_never_fails_witness :
  let st := with_queue
              (push (new_item sample_host (sample_payload "user.created"))
                 (queue init)) init in
  reachable reference_deliver st
  /\ Forall (fun o => status o = success) (processedEvents st)
  /\ Forall (fun o => status o <> failed) (processedEvents st)
  /\ Forall (fun item => retries item = 0) (queue st)
  /\ Forall (fun l => exists ev, l = Log_processing ev) (console st).
Proof.
  cbv zeta.
  assert (reachable reference_deliver
            (with_queue
               (push (new_item sample_host (sample_payload "user.created"))
                  (queue init)) init)) as Hr.
  { apply (reach_in_pass reference_deliver sample_host signed
             (sample_payload "user.created") init 0).
    - constructor.
    - vm_compute. reflexivity.
    - simpl. lia. }
  split; [exact Hr|]. exact (reference_never_fails _ Hr).
Defined.

Lemma reference_queue_at_most_one_witness :
  let st := (handle reference_deliver sample_host
               (POST_webhook signed (sample_payload "user.created")) init).2 in
  reachable reference_deliver st
  /\ between_requests reference_deliver st
  /\ length (queue st) <= 1
  /\ queue st = []
  /\ queue (post_webhook reference_deliver sample_host signed
              (sample_payload "invoice.paid") st).2 = [].
Proof.
  cbv zeta.
  assert (between_requests reference_deliver
            (handle reference_deliver sample_host
               (POST_webhook signed (sample_payload "user.created")) init).2) as Hbr.
  { apply br_handle. apply br_init. }
  pose proof (reach_between _ _ Hbr) as Hr.
  destruct (reference_queue_at_most_one _ Hr) as [Hlen Hret].
  destruct (Hret sample_host signed (sample_payload "invoice.paid") Hbr) as [Hq Hq'].
  repeat split; assumption.
Defined.

(** The history after any sequence of requests is made of the admitted
    ones alone, recorded in order by the success path. *)
Lemma run_reference steps st :
  queue st = [] ->
  queue (run reference_deliver steps st) = []
  /\ processedEvents (run reference_deliver steps st)
     = record_all (admitted_events steps) (processedEvents st).
Proof.
  revert st. induction steps as [|[host req] steps IH]; intros st Hq; simpl.
  - done.
  - pose proof (handle_reference host req st Hq) as Hh.
    destruct req as [headers body| | | |]; rewrite Hh;
      try (destruct (IH st Hq) as [IHq IHh]; by rewrite IHq, IHh).
    destruct (admitted host headers body); simpl.
    + match goal with |- context [run _ _ ?s] => destruct (IH s eq_refl) as [IHq IHh] end.
      by rewrite IHq, IHh.
    + destruct (IH st Hq) as [IHq IHh]. by rewrite IHq, IHh.
Qed.

(** The 25 successes as the server records them: 25 admitted webhooks,
    mixed with any other requests. *)
Lemma run_25_admissions steps :
  admissions steps = 25 ->
  processedEvents (run reference_deliver steps init)
  = rev (map success_outcome (drop 5 (admitted_events steps))).
Proof.
  intros Hadm. destruct (run_reference steps init eq_refl) as [_ ->].
  apply record_all_last_20; [done|simpl; lia].
Qed.



(** ** A pass over several items *)

Lemma every_other_cons {A : Type} (x : A) (l : list A) :
  every_other (x :: l) = x :: every_other (drop 1 l).
Proof. by destruct l. Qed.

Lemma every_other_length {A : Type} (l : list A) :
  length (every_other l) + length (every_other (drop 1 l)) = length l.
Proof.
  induction l as [|x l IH]; [done|].
  rewrite every_other_cons. simpl drop at 2. rewrite drop_0. simpl. lia.
Qed.

Lemma attempts_app out1 out2 :
  attempts (out1 ++ out2) = attempts out1 ++ attempts out2.
Proof. apply omap_app. Qed.

Lemma attempts_log_processing (q : list WebhookQueueItem) :
  attempts (map (fun item => Log_processing (event (payload item))) q)
  = map (fun item => event (payload item)) q.
Proof. induction q as [|x q IH]; [done|]. simpl. f_equal. exact IH. Qed.

(** When every attempt succeeds, the removal of the item at index [k]
    moves its successor into index [k], which forEach has then left
    behind: from index [k] on, the pass attempts every other item and
    leaves the ones in between in the queue. *)
Lemma forEach_all_success host n :
  forall rest pre k h out,
    length pre = k ->
    length rest <= n ->
    exists h',
      forEach_from queue (callback reference_deliver host) n k
        {| queue := pre ++ rest; processedEvents := h; console := out |}
      = {| queue := pre ++ every_other (drop 1 rest);
           processedEvents := h';
           console := out ++ map (fun item => Log_processing (event (payload item)))
                               (every_other rest) |}.
Proof.
  induction n as [|n IH]; intros rest pre k h out Hk Hn.
  - destruct rest; [|simpl in Hn; lia]. exists h. simpl. by rewrite !app_nil_r.
  - assert (forall s, length (queue s) <= S k ->
              forEach_from queue (callback reference_deliver host) n (S k) s = s)
      as Hpast.
    { intros s Hs. apply forEach_from_past_end; [|done].
      intros. apply callback_queue_length. }
    destruct rest as [|x [|y rest]].
    + exists h. simpl forEach_from.
      rewrite lookup_ge_None_2 by (simpl; rewrite app_nil_r; lia).
      rewrite Hpast by (simpl; rewrite app_nil_r; lia).
      simpl. by rewrite !app_nil_r.
    + eexists. simpl forEach_from. subst k.
      rewrite list_lookup_middle by done.
      rewrite callback_success by done. simpl queue. rewrite delete_middle.
      rewrite Hpast by (simpl; rewrite app_nil_r; lia).
      simpl. by rewrite !app_nil_r.
    + simpl forEach_from. subst k.
      rewrite list_lookup_middle by done.
      rewrite callback_success by done. simpl queue. rewrite delete_middle.
      rewrite (cons_middle y pre rest), app_assoc.
      edestruct (IH rest (pre ++ [y]) (S (length pre))) as [h' Hh'].
      * rewrite length_app. simpl. lia.
      * simpl in Hn. lia.
      * exists h'. rewrite Hh'. f_equal.
        -- rewrite <- app_assoc. simpl. f_equal. f_equal.
           destruct rest; simpl; [done|]. by rewrite drop_0.
        -- simpl. by rewrite <- app_assoc.
Qed.

Lemma processQueue_all_success host st :
  queue (processQueue reference_deliver host st) = every_other (drop 1 (queue st))
  /\ attempts (console (processQueue reference_deliver host st))
     = attempts (console st)
         ++ map (fun item => event (payload item)) (every_other (queue st)).
Proof.
  destruct st as [q h out]. unfold processQueue, forEach. cbn [queue console].
  destruct (forEach_all_success host (length q) q [] 0 h out eq_refl (le_n _))
    as [h' Hh'].
  simpl in Hh'. rewrite Hh'. cbn [queue console]. split; [done|].
  by rewrite attempts_app, attempts_log_processing.
Qed.

(** With two items or more in the queue and no failing attempt, a pass
    leaves items unattempted. *)
Lemma processQueue_all_success_skips host st :
  2 <= length (queue st) ->
  ~ visits_each_item_once reference_deliver host st.
Proof.
  intros Hlen Hv. unfold visits_each_item_once in Hv.
  destruct (processQueue_all_success host st) as [_ Ha]. rewrite Ha in Hv.
  apply app_inv_head in Hv. apply (f_equal length) in Hv.
  rewrite !length_map in Hv.
  pose proof (every_other_length (queue st)) as Hsum.
  destruct (queue st) as [|x [|y q]]; [simpl in Hlen; lia..|].
  simpl drop in Hsum. rewrite (every_other_cons y q) in Hsum.
  simpl in Hsum, Hv. lia.
Qed.

(** Whatever the callback does with the item, it logs one attempt, and
    the queue either loses the entry at [index] or keeps its length. *)
Lemma callback_attempts deliver host item index st :
  attempts (console (callback deliver host item index st))
  = attempts (console st) ++ [event (payload item)].
Proof.
  unfold callback. destruct (deliver index item); cbn zeta.
  - simpl console. by rewrite attempts_app.
  - destruct (MAX_RETRIES <=? retries (bump item))%nat; simpl console;
      rewrite !attempts_app; simpl; by rewrite ?app_nil_r.
Qed.

Lemma callback_queue deliver host item index st :
  queue (callback deliver host item index st) = delete index (queue st)
  \/ queue (callback deliver host item index st) = <[index := bump item]> (queue st).
Proof.
  unfold callback. destruct (deliver index item); cbn zeta.
  - by left.
  - destruct (MAX_RETRIES <=? retries (bump item))%nat; simpl.
    + left. apply delete_insert_same.
    + by right.
Qed.

(** For any outcomes of the deliveries: the items a pass attempts from
    index [k] on are taken, in order and each at most once, from the
    items that lie at index [k] and beyond when it gets there. *)
Lemma forEach_visits_sublist deliver host n :
  forall rest pre k st,
    queue st = pre ++ rest ->
    length pre = k ->
    exists visited,
      attempts (console (forEach_from queue (callback deliver host) n k st))
      = attempts (console st) ++ map (fun item => event (payload item)) visited
      /\ visited `sublist_of` rest.
Proof.
  induction n as [|n IH]; intros rest pre k st Hq Hk.
  - exists []. simpl. rewrite app_nil_r. split; [done|]. apply sublist_nil_l.
  - assert (forall s, length (queue s) <= S k ->
              forEach_from queue (callback deliver host) n (S k) s = s)
      as Hpast.
    { intros s Hs. apply forEach_from_past_end; [|done].
      intros. apply callback_queue_length. }
    simpl forEach_from. destruct rest as [|x rest].
    + rewrite lookup_ge_None_2 by (rewrite Hq, app_nil_r; lia).
      rewrite Hpast by (rewrite Hq, app_nil_r; lia).
      exists []. simpl. by rewrite app_nil_r.
    + subst k. rewrite Hq, list_lookup_middle by done.
      set (st1 := callback deliver host x (length pre) st).
      pose proof (callback_attempts deliver host x (length pre) st) as Ha.
      fold st1 in Ha.
      destruct (callback_queue deliver host x (length pre) st) as [Hq1|Hq1];
        fold st1 in Hq1; rewrite Hq in Hq1.
      * rewrite delete_middle in Hq1. destruct rest as [|y rest].
        -- rewrite Hpast by (rewrite Hq1, app_nil_r; lia).
           exists [x]. by rewrite Ha.
        -- destruct (IH rest (pre ++ [y]) (S (length pre)) st1) as (visited & Hv & Hs).
           { by rewrite Hq1, <- app_assoc. }
           { rewrite length_app. simpl. lia. }
           exists (x :: visited). split.
           ++ rewrite Hv, Ha, <- app_assoc. done.
           ++ apply sublist_skip. by apply sublist_cons.
      * rewrite insert_app_r_alt, Nat.sub_diag in Hq1 by lia. simpl in Hq1.
        destruct (IH rest (pre ++ [bump x]) (S (length pre)) st1) as (visited & Hv & Hs).
        { by rewrite Hq1, <- app_assoc. }
        { rewrite length_app. simpl. lia. }
        exists (x :: visited). split.
        -- rewrite Hv, Ha, <- app_assoc. done.
        -- by apply sublist_skip.
Qed.

Lemma processQueue_visits_sublist deliver host st :
  exists visited,
    attempts (console (processQueue deliver host st))
    = attempts (console st) ++ map (fun item => event (payload item)) visited
    /\ visited `sublist_of` queue st.
Proof.
  apply (forEach_visits_sublist deliver host (length (queue st)) (queue st) [] 0 st);
    done.
Qed.

(** C1 (the code departs from it): on a queue of two items, none of
    whose deliveries fails, a pass attempts the first item only; the
    second, present at the start of the pass, is left in the queue
    without an attempt and without an outcome. *)
Theorem processQueue_skips_second_item :
  let a := sample_item "user.created" 0 in
  let b := sample_item "order.completed" 0 in
  let st := {| queue := [a; b]; processedEvents := []; console := [] |} in
  let st' := processQueue reference_deliver sample_host st in
  attempts (console st') = ["user.created"]
  /\ queue st' = [b]
  /\ processedEvents st'
     = [{| pe_event := "user.created"; status := success;
           timestamp := Date_now sample_host 0 |}]
  /\ ~ visits_each_item_once reference_deliver sample_host st.
Proof.
  cbv zeta. repeat split.
  apply processQueue_all_success_skips. simpl. lia.
Qed.

(** C2 (the code departs from it): the drop path records its "failed"
    outcome without the size check of the success path; on a history of
    20 entries it leaves 21, the oldest still there. *)
Theorem failed_outcome_exceeds_capacity :
  let st := {| queue := [sample_item "payment.failed" 2];
               processedEvents := full_history; console := [] |} in
  let st' := processQueue always_fails sample_host st in
  length (processedEvents st) = 20
  /\ length (processedEvents st') = 21
  /\ processedEvents st'
     = {| pe_event := "payment.failed"; status := failed;
          timestamp := Date_now sample_host 0 |} :: full_history
  /\ queue st' = [].
Proof. cbv zeta. repeat split. Qed.

(** The same two departures, reached by the server from its initial
    store when the deliveries of one event fail.  The third request is
    answered like the others, yet its item is stepped over by the pass
    that drops the failing item, and is still queued afterwards. *)
Lemma skipped_item_reachable :
  let steps := [post "payment.failed"; post "user.created"; post "order.completed"] in
  let st := run (fails_for "payment.failed") steps init in
  queue st = [new_item sample_host (sample_payload "order.completed")]
  /\ attempts (console st)
     = ["payment.failed"; "payment.failed"; "user.created"; "payment.failed"]
  /\ map pe_event (processedEvents st) = ["payment.failed"; "user.created"].
Proof. vm_compute. repeat split. Qed.

Lemma history_overflow_reachable :
  let steps := replicate 20 (post "user.created")
               ++ [post "payment.failed"; post "user.created"; post "order.completed"] in
  let st := run (fails_for "payment.failed") steps init in
  length (processedEvents st) = 21
  /\ length (processedEvents
               (run (fails_for "payment.failed")
                  (steps ++ replicate 30 (post "user.created")) init)) = 21.
Proof. vm_compute. repeat split. Qed.

(** ** A queue whose deliveries all fail *)










(** ** Retries *)






(** * Further properties *)

(** ** What every pass keeps, whatever the deliveries do *)

Section ForEachPreserves.
Context {Store A : Type} (arr : Store -> list A) (cb : A -> nat -> Store -> Store).

(** A relation between the store before and after that each run of the
    callback establishes holds across the whole loop. *)
Lemma forEach_from_relates (R : Store -> Store -> Prop) :
  (forall s, R s s) ->
  (forall s1 s2 s3, R s1 s2 -> R s2 s3 -> R s1 s3) ->
  (forall x i s, arr s !! i = Some x -> R s (cb x i s)) ->
  forall n k s, R s (forEach_from arr cb n k s).
Proof.
  intros Hrefl Htrans Hcb. induction n as [|n IH]; intros k s; simpl; [done|].
  destruct (arr s !! k) as [x|] eqn:Hk; [|done].
  eapply Htrans; [by apply Hcb|]. apply IH.
Qed.

Lemma forEach_from_keeps (P : Store -> Prop) :
  (forall x i s, arr s !! i = Some x -> P s -> P (cb x i s)) ->
  forall n k s, P s -> P (forEach_from arr cb n k s).
Proof.
  intros Hcb n k s.
  apply (forEach_from_relates (fun s s' => P s -> P s')); auto.
Qed.
End ForEachPreserves.

Lemma drops_app out1 out2 : drops (out1 ++ out2) = drops out1 + drops out2.
Proof. unfold drops. by rewrite omap_app, length_app. Qed.

(** The callback, case by case, as a property of its result. *)
Lemma callback_cases (P : State -> Prop) deliver host item index st :
  (deliver index item = true ->
   P {| queue := delete index (queue st);
        processedEvents :=
          record_success (event (payload item)) (Date_now host index)
            (processedEvents st);
        console := console st ++ [Log_processing (event (payload item))] |}) ->
  (deliver index item = false -> S (retries item) < MAX_RETRIES ->
   P {| queue := <[index := bump item]> (queue st);
        processedEvents := processedEvents st;
        console := (console st ++ [Log_processing (event (payload item))])
                     ++ [Err_failed (event (payload item)) (S (retries item))] |}) ->
  (deliver index item = false -> MAX_RETRIES <= S (retries item) ->
   P {| queue := delete index (queue st);
        processedEvents :=
          {| pe_event := event (payload item); status := failed;
             timestamp := Date_now host index |} :: processedEvents st;
        console := ((console st ++ [Log_processing (event (payload item))])
                      ++ [Err_failed (event (payload item)) (S (retries item))])
                     ++ [Err_dropping (payload item)] |}) ->
  P (callback deliver host item index st).
Proof.
  intros Hs Hk Hd. destruct (deliver index item) eqn:Hdel.
  - rewrite callback_success by done. by apply Hs.
  - destruct (decide (MAX_RETRIES <= S (retries item))) as [Hge|Hlt].
    + rewrite callback_failed_drop by done. by apply Hd.
    + rewrite callback_failed_keep by first [done|lia]. apply Hk; [done|lia].
Qed.

Lemma record_success_length_any ev t h :
  length (record_success ev t h)
  = if decide (length h < 20) then S (length h) else length h.
Proof.
  unfold record_success, unshift, pop. cbn zeta. rewrite length_cons.
  destruct (Nat.ltb_spec 20 (S (length h))) as [Hgt|Hle].
  - rewrite length_take, length_cons. case_decide; lia.
  - rewrite length_cons. case_decide; lia.
Qed.

(** An invariant of the server: what holds initially and is kept by the
    push of the /webhook handler and by each run of the callback holds
    at every moment. *)
Lemma reachable_keeps deliver (P : State -> Prop) :
  P init ->
  (forall host body st,
      P st -> P (with_queue (push (new_item host body) (queue st)) st)) ->
  (forall host item i st,
      queue st !! i = Some item -> P st -> P (callback deliver host item i st)) ->
  forall st, reachable deliver st -> P st.
Proof.
  intros Hinit Hpush Hcb.
  assert (forall st, between_requests deliver st -> P st) as Hbr.
  { induction 1 as [|host req st _ IH]; [done|].
    destruct req as [headers body| | | |]; simpl; try done.
    unfold post_webhook. cbn zeta. destruct (validateSignature _ _ _); simpl; [|done].
    unfold processQueue, forEach.
    apply (forEach_from_keeps queue (callback deliver host) P); [by apply Hcb|].
    by apply Hpush. }
  intros st [st' Hst'|host headers body st' j Hst' _ _]; [by apply Hbr|].
  apply (forEach_from_keeps queue (callback deliver host) P); [by apply Hcb|].
  apply Hpush. by apply Hbr.
Qed.

(** X6: whatever the deliveries do, no item with MAX_RETRIES failures or
    more is ever found in the queue, so /queue-status never lists an item
    whose retries reach the maxRetries it reports. *)
Theorem queued_retries_below_max deliver st :
  reachable deliver st ->
  Forall (fun item => retries item < MAX_RETRIES) (queue st)
  /\ exists items,
      items_of (get_queue_status st).1 = Some items
      /\ maxRetries_of (get_queue_status st).1 = Some MAX_RETRIES
      /\ Forall (fun i => qs_retries i < MAX_RETRIES) items.
Proof.
  intros Hr.
  assert (Forall (fun item => retries item < MAX_RETRIES) (queue st)) as Hq.
  { revert st Hr. apply reachable_keeps.
    - constructor.
    - intros host body st Hq. simpl. unfold push. apply Forall_app. split; [done|].
      constructor; [|constructor]. simpl. unfold MAX_RETRIES. lia.
    - intros host item i st Hi Hq. apply callback_cases; intros; simpl.
      + by apply Forall_delete.
      + apply Forall_insert; [done|]. simpl. lia.
      + by apply Forall_delete. }
  split; [done|]. eexists. split; [reflexivity|]. split; [reflexivity|].
  apply Forall_fmap. eapply Forall_impl; [exact Hq|]. by intros item.
Qed.

Lemma queued_retries_below_max_witness :
  let st := (handle (fails_for "payment.failed") sample_host
               (POST_webhook signed (sample_payload "payment.failed")) init).2 in
  reachable (fails_for "payment.failed") st
  /\ queue st = [sample_item "payment.failed" 1]
  /\ Forall (fun item => retries item < MAX_RETRIES) (queue st).
Proof.
  cbv zeta.
  assert (reachable (fails_for "payment.failed")
            (handle (fails_for "payment.failed") sample_host
               (POST_webhook signed (sample_payload "payment.failed")) init).2) as Hr.
  { apply reach_between. apply br_handle. apply br_init. }
  split; [exact Hr|]. split; [vm_compute; reflexivity|].
  exact (proj1 (queued_retries_below_max _ _ Hr)).
Defined.

(** X8: whatever the deliveries do, the history exceeds 20 entries by at
    most the number of items dropped so far; without a drop it never
    does. *)
Theorem history_excess_bounded_by_drops deliver st :
  reachable deliver st ->
  length (processedEvents st) <= 20 + drops (console st).
Proof.
  revert st. apply reachable_keeps.
  - simpl. lia.
  - intros host body st Hst. done.
  - intros host item i st Hi Hst. apply callback_cases; intros; simpl.
    + rewrite record_success_length_any, drops_app. simpl. case_decide; lia.
    + rewrite !drops_app. simpl. lia.
    + rewrite !drops_app. simpl. unfold drops at 4. simpl. lia.
Qed.

Lemma history_excess_bounded_by_drops_witness :
  let st := run (fails_for "payment.failed")
              (replicate 20 (post "user.created")
                 ++ [post "payment.failed"; post "user.created"; post "order.completed"])
              init in
  reachable (fails_for "payment.failed") st
  /\ length (processedEvents st) = 21
  /\ drops (console st) = 1
  /\ length (processedEvents st) <= 20 + drops (console st).
Proof.
  cbv zeta.
  assert (forall steps st, between_requests (fails_for "payment.failed") st ->
            between_requests (fails_for "payment.failed")
              (run (fails_for "payment.failed") steps st)) as Hrun.
  { induction steps as [|[host req] steps IH]; intros st Hst; simpl; [done|].
    apply IH. by constructor. }
  pose proof (reach_between _ _
                (Hrun (replicate 20 (post "user.created")
                         ++ [post "payment.failed"; post "user.created";
                             post "order.completed"]) init (br_init _))) as Hr.
  split; [exact Hr|]. split; [vm_compute; reflexivity|].
  split; [vm_compute; reflexivity|].
  exact (history_excess_bounded_by_drops _ _ Hr).
Defined.

Lemma run_between_requests deliver steps st :
  between_requests deliver st ->
  between_requests deliver (run deliver steps st).
Proof.
  revert st. induction steps as [|[host req] steps IH]; intros st Hst; simpl; [done|].
  apply IH. by constructor.
Qed.

(** The store a request leaves is the one it found, or the result of a
    pass over the queue with one more item. *)
Lemma handle_store deliver host req st :
  (handle deliver host req st).2 = st
  \/ exists body,
      (handle deliver host req st).2
      = processQueue deliver host
          (with_queue (push (new_item host body) (queue st)) st).
Proof.
  destruct req as [headers body| | | |]; simpl; auto.
  unfold post_webhook. cbn zeta. destruct (validateSignature _ _ _); simpl; eauto.
Qed.

(** X9: the history never gets shorter, neither in a pass nor over any
    sequence of requests, whatever the deliveries do: an entry is evicted
    only by the insertion of another. *)
Theorem history_never_shrinks deliver :
  (forall host st,
      length (processedEvents st)
      <= length (processedEvents (processQueue deliver host st)))
  /\ (forall steps st,
        length (processedEvents st)
        <= length (processedEvents (run deliver steps st))).
Proof.
  assert (forall host st,
             length (processedEvents st)
             <= length (processedEvents (processQueue deliver host st))) as Hpass.
  { intros host st. unfold processQueue, forEach.
    apply (forEach_from_relates queue (callback deliver host)
             (fun s s' => length (processedEvents s) <= length (processedEvents s'))).
    - done.
    - intros s1 s2 s3. lia.
    - intros item i s _. apply callback_cases; intros; simpl.
      + rewrite record_success_length_any. case_decide; lia.
      + done.
      + lia. }
  split; [done|].
  induction steps as [|[host req] steps IH]; intros st; simpl; [done|].
  etrans; [|apply IH].
  destruct (handle_store deliver host req st) as [->|[body ->]]; [done|].
  etrans; [|apply Hpass]. done.
Qed.

(** X7: as long as the history has room for the whole queue, a pass
    loses nothing: the outcomes it puts in front of the history are as
    many as the items it takes off the queue, whatever the deliveries
    do. *)
Theorem pass_conserves_items deliver host st :
  length (processedEvents st) + length (queue st) <= 20 ->
  exists new,
    processedEvents (processQueue deliver host st) = new ++ processedEvents st
    /\ length new + length (queue (processQueue deliver host st))
       = length (queue st).
Proof.
  unfold processQueue, forEach.
  apply (forEach_from_relates queue (callback deliver host)
           (fun s s' =>
              length (processedEvents s) + length (queue s) <= 20 ->
              exists new,
                processedEvents s' = new ++ processedEvents s
                /\ length new + length (queue s') = length (queue s))).
  - intros s _. by exists [].
  - intros s1 s2 s3 H12 H23 Hroom.
    destruct (H12 Hroom) as (new1 & Hh1 & Hl1).
    destruct H23 as (new2 & Hh2 & Hl2).
    { rewrite Hh1, length_app. lia. }
    exists (new2 ++ new1). rewrite Hh2, Hh1, app_assoc, length_app.
    split; [done|lia].
  - intros item i s Hi Hroom.
    pose proof (lookup_lt_Some _ _ _ Hi) as Hlt.
    apply callback_cases; intros; simpl.
    + rewrite record_success_take by lia.
      rewrite take_ge by (simpl; lia).
      eexists [_]. split; [done|]. rewrite length_delete by eauto. simpl. lia.
    + exists []. split; [done|]. rewrite length_insert. simpl. lia.
    + eexists [_]. split; [done|]. rewrite length_delete by eauto. simpl. lia.
Qed.

Lemma pass_conserves_items_witness :
  let st := {| queue := [sample_item "payment.failed" 2; sample_item "user.created" 0;
                         sample_item "order.completed" 0];
               processedEvents := []; console := [] |} in
  length (processedEvents st) + length (queue st) <= 20
  /\ exists new,
      processedEvents (processQueue (fails_for "payment.failed") sample_host st)
      = new ++ processedEvents st
      /\ length new
         + length (queue (processQueue (fails_for "payment.failed") sample_host st))
         = length (queue st).
Proof.
  cbv zeta. split; [simpl; lia|].
  apply pass_conserves_items. simpl. lia.
Defined.

Lemma map_delete {A B : Type} (f : A -> B) (l : list A) (i : nat) :
  map f (delete i l) = delete i (map f l).
Proof. revert i. induction l as [|x l IH]; intros [|i]; simpl; [done..|]. by rewrite IH. Qed.

Lemma map_insert_same {A B : Type} (f : A -> B) (l : list A) (i : nat) (x y : A) :
  l !! i = Some x -> f y = f x -> map f (<[i := y]> l) = map f l.
Proof.
  revert i. induction l as [|z l IH]; intros [|i] Hi Hf; simpl in *; try done.
  - injection Hi as ->. by rewrite Hf.
  - by rewrite IH.
Qed.

(** X10: a pass never reorders the queue, never puts anything into it
    and never changes the payload or the addedAt of an item: up to
    retries, the queue after the pass is a subsequence of the queue
    before it, whatever the deliveries do. *)
Theorem pass_keeps_queue_order deliver host st :
  map entry (queue (processQueue deliver host st))
    `sublist_of` map entry (queue st)
  /\ length (queue (processQueue deliver host st)) <= length (queue st).
Proof.
  assert (map entry (queue (processQueue deliver host st))
            `sublist_of` map entry (queue st)) as Hsub.
  { unfold processQueue, forEach.
    apply (forEach_from_relates queue (callback deliver host)
             (fun s s' => map entry (queue s') `sublist_of` map entry (queue s))).
    - done.
    - intros s1 s2 s3 H12 H23. by etrans.
    - intros item i s Hi. apply callback_cases; intros; simpl.
      + rewrite map_delete. apply sublist_delete.
      + by rewrite (map_insert_same entry _ _ item).
      + rewrite map_delete. apply sublist_delete. }
  split; [done|].
  apply sublist_length in Hsub. by rewrite !length_map in Hsub.
Qed.

(** ** How much of the queue a pass gets to *)

Lemma forEach_visits_half deliver host n :
  forall rest pre k st,
    queue st = pre ++ rest ->
    length pre = k ->
    length rest <= n ->
    exists visited,
      attempts (console (forEach_from queue (callback deliver host) n k st))
      = attempts (console st) ++ map (fun item => event (payload item)) visited
      /\ visited `sublist_of` rest
      /\ head visited = head rest
      /\ length rest <= 2 * length visited.
Proof.
  induction n as [|n IH]; intros rest pre k st Hq Hk Hn.
  - destruct rest; [|simpl in Hn; lia]. exists []. simpl. by rewrite app_nil_r.
  - assert (forall s, length (queue s) <= S k ->
              forEach_from queue (callback deliver host) n (S k) s = s)
      as Hpast.
    { intros s Hs. apply forEach_from_past_end; [|done].
      intros. apply callback_queue_length. }
    simpl forEach_from. destruct rest as [|x rest].
    + rewrite lookup_ge_None_2 by (rewrite Hq, app_nil_r; lia).
      rewrite Hpast by (rewrite Hq, app_nil_r; lia).
      exists []. simpl. by rewrite app_nil_r.
    + subst k. rewrite Hq, list_lookup_middle by done.
      set (st1 := callback deliver host x (length pre) st).
      pose proof (callback_attempts deliver host x (length pre) st) as Ha.
      fold st1 in Ha.
      destruct (callback_queue deliver host x (length pre) st) as [Hq1|Hq1];
        fold st1 in Hq1; rewrite Hq in Hq1.
      * rewrite delete_middle in Hq1. destruct rest as [|y rest].
        -- rewrite Hpast by (rewrite Hq1, app_nil_r; lia).
           exists [x]. rewrite Ha. repeat split; [done|simpl; lia].
        -- destruct (IH rest (pre ++ [y]) (S (length pre)) st1)
             as (visited & Hv & Hs & _ & Hhalf).
           { by rewrite Hq1, <- app_assoc. }
           { rewrite length_app. simpl. lia. }
           { simpl in Hn. lia. }
           exists (x :: visited). repeat split.
           ++ rewrite Hv, Ha, <- app_assoc. done.
           ++ apply sublist_skip. by apply sublist_cons.
           ++ simpl. lia.
      * rewrite insert_app_r_alt, Nat.sub_diag in Hq1 by lia. simpl in Hq1.
        destruct (IH rest (pre ++ [bump x]) (S (length pre)) st1)
          as (visited & Hv & Hs & _ & Hhalf).
        { by rewrite Hq1, <- app_assoc. }
        { rewrite length_app. simpl. lia. }
        { simpl in Hn. lia. }
        exists (x :: visited). repeat split.
        -- rewrite Hv, Ha, <- app_assoc. done.
        -- by apply sublist_skip.
        -- simpl. lia.
Qed.

(** X11: whatever the deliveries do, the items a pass attempts are
    taken from the queue it started from, in queue order and none
    twice; the first item of the queue is always among them, and they
    are at least half of the queue. *)
Theorem pass_attempts_head_and_half deliver host st :
  exists visited,
    attempts (console (processQueue deliver host st))
    = attempts (console st) ++ map (fun item => event (payload item)) visited
    /\ visited `sublist_of` queue st
    /\ head visited = head (queue st)
    /\ length (queue st) <= 2 * length visited
    /\ length visited <= length (queue st).
Proof.
  destruct (forEach_visits_half deliver host (length (queue st)) (queue st) [] 0 st)
    as (visited & Ha & Hs & Hh & Hhalf); [done..|].
  exists visited. repeat split; try done. by apply sublist_length.
Qed.

(** When no item leaves the queue the indices do not shift. *)
Lemma forEach_all_kept deliver host n :
  forall rest pre k h out,
    length pre = k ->
    length rest <= n ->
    (forall i item, rest !! i = Some item ->
                    deliver (k + i) item = false /\ S (retries item) < MAX_RETRIES) ->
    exists out',
      forEach_from queue (callback deliver host) n k
        {| queue := pre ++ rest; processedEvents := h; console := out |}
      = {| queue := pre ++ map bump rest; processedEvents := h; console := out' |}
      /\ attempts out' = attempts out ++ map (fun item => event (payload item)) rest.
Proof.
  induction n as [|n IH]; intros rest pre k h out Hk Hn Hfail.
  - destruct rest; [|simpl in Hn; lia]. exists out. simpl. by rewrite !app_nil_r.
  - destruct rest as [|x rest].
    + exists out. rewrite forEach_from_past_end.
      * simpl. by rewrite !app_nil_r.
      * intros. apply callback_queue_length.
      * simpl. rewrite app_nil_r. lia.
    + simpl forEach_from. subst k. rewrite list_lookup_middle by done.
      destruct (Hfail 0 x eq_refl) as [Hd Hr]. rewrite Nat.add_0_r in Hd.
      rewrite callback_failed_keep by done. simpl queue.
      rewrite insert_app_r_alt, Nat.sub_diag by lia. simpl.
      rewrite (cons_middle (bump x) pre rest), app_assoc.
      edestruct (IH rest (pre ++ [bump x]) (S (length pre))) as (out' & Hrun & Ha).
      * rewrite length_app. simpl. lia.
      * simpl in Hn. lia.
      * intros i item Hi. specialize (Hfail (S i) item Hi).
        by rewrite Nat.add_succ_r in Hfail.
      * exists out'. rewrite Hrun. split.
        -- f_equal. by rewrite <- app_assoc.
        -- rewrite Ha, !attempts_app. simpl. by rewrite app_nil_r, <- app_assoc.
Qed.

(** X12: a pass in which every attempt fails and no item reaches
    MAX_RETRIES attempts each item of the queue once, in queue order,
    adds one to the retries of each, and leaves the queue otherwise as
    it was and the history untouched. *)
Theorem pass_without_removal deliver host st :
  (forall k item, queue st !! k = Some item ->
                  deliver k item = false /\ S (retries item) < MAX_RETRIES) ->
  queue (processQueue deliver host st) = map bump (queue st)
  /\ processedEvents (processQueue deliver host st) = processedEvents st
  /\ visits_each_item_once deliver host st.
Proof.
  intros Hfail. destruct st as [q h out].
  unfold visits_each_item_once, processQueue, forEach. cbn [queue console processedEvents].
  destruct (forEach_all_kept deliver host (length q) q [] 0 h out eq_refl (le_n _))
    as (out' & Hrun & Ha); [done|].
  simpl in Hrun. rewrite Hrun. by cbn [queue console processedEvents].
Qed.

Lemma pass_without_removal_witness :
  let st := {| queue := [sample_item "user.created" 0; sample_item "order.completed" 1];
               processedEvents := []; console := [] |} in
  (forall k item, queue st !! k = Some item ->
                  always_fails k item = false /\ S (retries item) < MAX_RETRIES)
  /\ queue (processQueue always_fails sample_host st)
     = [sample_item "user.created" 1; sample_item "order.completed" 2]
  /\ visits_each_item_once always_fails sample_host st.
Proof.
  cbv zeta.
  assert (forall k item,
             [sample_item "user.created" 0; sample_item "order.completed" 1] !! k
             = Some item ->
             always_fails k item = false /\ S (retries item) < MAX_RETRIES) as Hfail.
  { intros [|[|k]] item Hk; simpl in Hk; [| |discriminate];
      injection Hk as <-; (split; [reflexivity|unfold MAX_RETRIES; simpl; lia]). }
  split; [exact Hfail|].
  destruct (pass_without_removal always_fails sample_host
              {| queue := [sample_item "user.created" 0;
                           sample_item "order.completed" 1];
                 processedEvents := []; console := [] |} Hfail) as (Hq & _ & Hv).
  split; [exact Hq|exact Hv].
Defined.

(** ** Passes without a failing delivery *)

Lemma every_other_halves {A : Type} (l : list A) :
  length (every_other (drop 1 l)) <= length (every_other l)
  /\ length (every_other l) <= S (length (every_other (drop 1 l))).
Proof.
  induction l as [|x l [IH1 IH2]]; [simpl; lia|].
  rewrite every_other_cons. change (drop 1 (x :: l)) with l.
  rewrite length_cons. lia.
Qed.

Lemma every_other_perm {A : Type} (l : list A) :
  every_other l ++ every_other (drop 1 l) ≡ₚ l.
Proof.
  induction l as [|x l IH]; [done|].
  rewrite every_other_cons. change (drop 1 (x :: l)) with l. simpl.
  constructor. by rewrite (comm (++)).
Qed.

(** X13: when no delivery fails, a pass attempts the items at positions
    0, 2, 4, ... of the queue and removes them, and leaves those at
    positions 1, 3, 5, ... where they are, unattempted: of n items,
    n / 2 (rounded down) stay queued. *)
Theorem pass_without_failure_takes_every_other host st :
  let st' := processQueue reference_deliver host st in
  queue st' = every_other (drop 1 (queue st))
  /\ attempts (console st')
     = attempts (console st)
         ++ map (fun item => event (payload item)) (every_other (queue st))
  /\ length (queue st') = length (queue st) / 2.
Proof.
  cbv zeta. destruct (processQueue_all_success host st) as [Hq Ha].
  split; [done|]. split; [done|]. rewrite Hq.
  pose proof (every_other_length (queue st)).
  pose proof (every_other_halves (queue st)) as [? ?].
  apply Nat.div_unique with (r := length (every_other (queue st))
                                            - length (every_other (drop 1 (queue st))));
    lia.
Qed.

(** X14: when no delivery fails, passes repeated until 2 to the number
    of passes exceeds the length of the queue leave it empty, and all in
    all each item has been attempted exactly once. *)
Theorem passes_without_failure_drain hosts st :
  length (queue st) < 2 ^ length hosts ->
  queue (passes reference_deliver hosts st) = []
  /\ exists attempted,
      attempts (console (passes reference_deliver hosts st))
      = attempts (console st) ++ attempted
      /\ attempted ≡ₚ map (fun item => event (payload item)) (queue st).
Proof.
  revert st. induction hosts as [|host hosts IH]; intros st Hlen; simpl in *.
  - destruct (queue st); [|simpl in Hlen; lia].
    split; [done|]. exists []. by rewrite app_nil_r.
  - destruct (processQueue_all_success host st) as [Hq Ha].
    pose proof (every_other_length (queue st)).
    pose proof (every_other_halves (queue st)) as [? ?].
    destruct (IH (processQueue reference_deliver host st)) as (Hnil & rest & Hr & Hp).
    { rewrite Hq. lia. }
    split; [done|].
    exists (map (fun item => event (payload item)) (every_other (queue st)) ++ rest).
    split.
    + by rewrite Hr, Ha, app_assoc.
    + rewrite Hp, Hq, <- map_app. by rewrite every_other_perm.
Qed.

Lemma passes_without_failure_drain_witness :
  let st := {| queue := [sample_item "user.created" 0; sample_item "order.completed" 0;
                         sample_item "payment.received" 0];
               processedEvents := []; console := [] |} in
  length (queue st) < 2 ^ length [sample_host; sample_host]
  /\ queue (passes reference_deliver [sample_host; sample_host] st) = []
  /\ attempts (console (passes reference_deliver [sample_host; sample_host] st))
     = ["user.created"; "payment.received"; "order.completed"].
Proof.
  cbv zeta. split; [simpl; lia|].
  split; [|reflexivity].
  apply passes_without_failure_drain. simpl. lia.
Defined.

(** ** Admission *)

Lemma admitted_iff host (headers : gmap string string) body :
  admitted host headers body = true
  <-> exists token, headers !! "x-signature" = Some token
                    /\ token <> EmptyString
                    /\ jwt_verify host token SECRET = true.
Proof.
  unfold admitted, validateSignature.
  destruct (headers !! "x-signature") as [token|]; simpl.
  - destruct (decide (token = EmptyString)) as [->|Hne].
    + split; [discriminate|]. intros (token & Ht & Hne & _). by injection Ht as <-.
    + destruct (jwt_verify host token SECRET) eqn:Hv.
      * split; [|done]. intros _. by exists token.
      * split; [discriminate|]. intros (token' & Ht & _ & Hv').
        injection Ht as <-. congruence.
  - split; [discriminate|]. intros (token & Ht & _). discriminate.
Qed.

Lemma post_webhook_by_admission deliver host headers body st :
  post_webhook deliver host headers body st
  = if admitted host headers body then
      ({| http_status := 200;
          body := Webhook_ok true "Webhook received and processed" |},
       processQueue deliver host
         (with_queue (push (new_item host body) (queue st)) st))
    else ({| http_status := 401; body := Error_body "Invalid signature" |}, st).
Proof.
  unfold post_webhook, admitted. cbn zeta. by destruct (validateSignature _ _ _).
Qed.

(** X1: the /webhook handler answers 200 exactly when the x-signature
    header is there, is not empty and holds a token that jwt.verify
    accepts; in every other case it answers 401 and leaves the stores as
    they were.  An empty header is refused without jwt.verify having a
    say. *)
Theorem post_webhook_admission deliver host (headers : gmap string string) body st :
  let r := post_webhook deliver host headers body st in
  (http_status r.1 = 200
   <-> exists token, headers !! "x-signature" = Some token
                     /\ token <> EmptyString
                     /\ jwt_verify host token SECRET = true)
  /\ (http_status r.1 = 200 \/ http_status r.1 = 401)
  /\ (http_status r.1 = 401 -> r = (r.1, st))
  /\ (headers !! "x-signature" = Some EmptyString -> http_status r.1 = 401).
Proof.
  cbv zeta. rewrite post_webhook_by_admission.
  pose proof (admitted_iff host headers body) as Hiff.
  destruct (admitted host headers body); simpl.
  - split; [split; [intros _; by apply Hiff|done]|].
    split; [by left|]. split; [discriminate|].
    intros Hempty. destruct (proj1 Hiff eq_refl) as (token & Ht & Hne & _).
    congruence.
  - split; [split; [discriminate|intros H; by apply Hiff in H]|].
    split; [by right|]. done.
Qed.

Lemma post_webhook_admission_witness :
  let headers : gmap string string := {[ "x-signature" := EmptyString ]} in
  let st := {| queue := [sample_item "order.completed" 1];
               processedEvents := []; console := [] |} in
  headers !! "x-signature" = Some EmptyString
  /\ jwt_verify trusting_host EmptyString SECRET = true
  /\ post_webhook reference_deliver trusting_host headers
       (sample_payload "user.created") st
     = ({| http_status := 401; body := Error_body "Invalid signature" |}, st).
Proof.
  cbv zeta. split; [reflexivity|]. split; [reflexivity|].
  destruct (post_webhook_admission reference_deliver trusting_host
              {[ "x-signature" := EmptyString ]} (sample_payload "user.created")
              {| queue := [sample_item "order.completed" 1];
                 processedEvents := []; console := [] |})
    as (_ & _ & Hsame & Hempty).
  rewrite (Hsame (Hempty eq_refl)). reflexivity.
Defined.

(** X2: the response of the /webhook handler is settled by the
    x-signature header and jwt.verify alone: two requests with the same
    header get the same response, whatever their bodies, their other
    headers, the stores and the outcome of the deliveries.  The token
    is not tied to the body it comes with. *)
Theorem post_webhook_response_by_signature
    deliver1 deliver2 host (headers1 headers2 : gmap string string)
    body1 body2 st1 st2 :
  headers1 !! "x-signature" = headers2 !! "x-signature" ->
  (post_webhook deliver1 host headers1 body1 st1).1
  = (post_webhook deliver2 host headers2 body2 st2).1.
Proof.
  intros Hh. unfold post_webhook. cbn zeta. rewrite Hh.
  unfold validateSignature.
  destruct (decide (default EmptyString (headers2 !! "x-signature") = EmptyString));
    [done|].
  by destruct (jwt_verify host _ SECRET).
Qed.

Lemma post_webhook_response_by_signature_witness :
  let headers2 : gmap string string :=
    <[ "content-type" := "application/json" ]> signed in
  signed !! "x-signature" = headers2 !! "x-signature"
  /\ (post_webhook reference_deliver sample_host signed
        (sample_payload "user.created") init).1
     = (post_webhook always_fails sample_host headers2
          (sample_payload "order.completed")
          {| queue := [sample_item "invoice.paid" 2];
             processedEvents := full_history; console := [] |}).1.
Proof.
  cbv zeta.
  assert (signed !! "x-signature"
          = (<[ "content-type" := "application/json" ]> signed : gmap string string)
              !! "x-signature") as Hh by (vm_compute; reflexivity).
  split; [exact Hh|].
  by apply post_webhook_response_by_signature.
Defined.

(** X3: the stores after a sequence of requests are those the admitted
    /webhook requests of the sequence produce on their own: the GET
    routes and the refused /webhook requests change nothing.  In
    particular an item waiting in the queue is not attempted again until
    a webhook is admitted. *)
Theorem store_changes_only_on_admission deliver steps st :
  run deliver steps st = run deliver (List.filter admitted_step steps) st
  /\ (admissions steps = 0 -> run deliver steps st = st).
Proof.
  split.
  - revert st. induction steps as [|[host req] steps IH]; intros st; [done|].
    destruct req as [headers body| | | |]; simpl; try apply IH.
    unfold admitted_step. simpl.
    destruct (admitted host headers body) eqn:Hadm; simpl; [apply IH|].
    rewrite <- IH. f_equal. unfold post_webhook. cbn zeta.
    unfold admitted in Hadm. by rewrite Hadm.
  - revert st. unfold admissions.
    induction steps as [|[host req] steps IH]; intros st Hadm; [done|].
    destruct req as [headers body| | | |]; simpl in *; try by apply IH.
    destruct (admitted host headers body) eqn:Hok; simpl in Hadm; [lia|].
    rewrite <- (IH st Hadm) at 2. f_equal. unfold post_webhook. cbn zeta.
    unfold admitted in Hok. by rewrite Hok.
Qed.

Lemma store_changes_only_on_admission_witness :
  let steps := [(sample_host, GET_queue_status); (sample_host, GET_health);
                (sample_host, POST_webhook forged (sample_payload "user.created"));
                (sample_host, GET_dashboard);
                (sample_host, GET_generate_test_token)] in
  let st := {| queue := [sample_item "payment.failed" 1];
               processedEvents := []; console := [] |} in
  admissions steps = 0 /\ run reference_deliver steps st = st.
Proof.
  cbv zeta.
  assert (admissions
            [(sample_host, GET_queue_status); (sample_host, GET_health);
             (sample_host, POST_webhook forged (sample_payload "user.created"));
             (sample_host, GET_dashboard);
             (sample_host, GET_generate_test_token)] = 0) as Hadm
    by (vm_compute; reflexivity).
  split; [exact Hadm|].
  exact (proj2 (store_changes_only_on_admission reference_deliver _ _) Hadm).
Defined.

(** X4: /generate-test-token signs with the secret /webhook verifies
    with: if jwt.verify accepts, for a given secret, the tokens jwt.sign
    makes with that secret, and these are not empty, then the token the
    route hands out, sent back as x-signature, gets any webhook admitted;
    handing it out changes no store. *)
Theorem generated_token_is_admitted host host' st :
  (forall iat secret, jwt_sign host iat secret <> EmptyString) ->
  (forall iat secret, jwt_verify host' (jwt_sign host iat secret) secret = true) ->
  exists token,
    token_of (get_generate_test_token host st).1 = Some token
    /\ (get_generate_test_token host st).2 = st
    /\ forall deliver body st',
        (post_webhook deliver host' {[ "x-signature" := token ]} body st').1
        = {| http_status := 200;
             body := Webhook_ok true "Webhook received and processed" |}.
Proof.
  intros Hne Hv. exists (jwt_sign host (now host) SECRET).
  split; [done|]. split; [done|]. intros deliver body st'.
  unfold post_webhook. cbn zeta. rewrite lookup_singleton_eq. simpl.
  unfold validateSignature. rewrite Hv.
  by destruct (decide (jwt_sign host (now host) SECRET = EmptyString)) as [?%Hne|].
Qed.

Lemma generated_token_is_admitted_witness :
  (forall iat secret, jwt_sign sample_host iat secret <> EmptyString)
  /\ (forall iat secret,
        jwt_verify sample_host (jwt_sign sample_host iat secret) secret = true)
  /\ exists token,
      token_of (get_generate_test_token sample_host init).1 = Some token
      /\ (post_webhook always_fails sample_host {[ "x-signature" := token ]}
            (sample_payload "user.created") init).1
         = {| http_status := 200;
              body := Webhook_ok true "Webhook received and processed" |}.
Proof.
  assert (forall iat secret, jwt_sign sample_host iat secret <> EmptyString) as Hne
    by (intros; discriminate).
  assert (forall iat secret,
             jwt_verify sample_host (jwt_sign sample_host iat secret) secret = true)
    as Hv by (intros; reflexivity).
  split; [exact Hne|]. split; [exact Hv|].
  destruct (generated_token_is_admitted sample_host sample_host init Hne Hv)
    as (token & Ht & _ & Hok).
  exists token. split; [exact Ht|]. apply Hok.
Defined.

(** X5: in the server as written, after any sequence of requests the
    history is the admitted webhooks, the latest first, cut to the last
    20, and the recentEvents of /queue-status are the last 10 of them. *)
Theorem recent_events_are_last_admitted steps :
  let st := run reference_deliver steps init in
  processedEvents st = take 20 (rev (map success_outcome (admitted_events steps)))
  /\ recentEvents_of (get_queue_status st).1
     = Some (take 10 (rev (map success_outcome (admitted_events steps)))).
Proof.
  cbv zeta. destruct (run_reference steps init eq_refl) as [_ Hh].
  rewrite record_all_take in Hh by (simpl; lia). simpl in Hh.
  rewrite app_nil_r in Hh. split; [done|].
  unfold recentEvents_of, get_queue_status, slice0. simpl. rewrite Hh.
  by rewrite take_take.
Qed.

(** X15: the answer of /webhook does not wait for a delivery to
    succeed: a webhook admitted on an empty queue whose delivery fails
    is answered 200 "Webhook received and processed" while its item
    stays in the queue with retries = 1 and the history is as before. *)
Theorem failed_webhook_is_acknowledged deliver host headers body st :
  admitted host headers body = true ->
  queue st = [] ->
  deliver 0 (new_item host body) = false ->
  post_webhook deliver host headers body st
  = ({| http_status := 200;
        body := Webhook_ok true "Webhook received and processed" |},
     {| queue := [bump (new_item host body)];
        processedEvents := processedEvents st;
        console := console st ++ [Log_processing (event body);
                                  Err_failed (event body) 1] |}).
Proof.
  intros Hadm Hq Hd. rewrite post_webhook_by_admission, Hadm.
  destruct st as [q h out]. simpl in Hq. subst q. f_equal.
  unfold with_queue, push. simpl app. cbn [queue processedEvents console].
  rewrite processQueue_single, callback_failed_keep
    by first [done | unfold MAX_RETRIES; simpl; lia].
  simpl. by rewrite <- app_assoc.
Qed.

Lemma failed_webhook_is_acknowledged_witness :
  (admitted sample_host signed (sample_payload "payment.failed") = true
   /\ queue init = []
   /\ fails_for "payment.failed" 0
        (new_item sample_host (sample_payload "payment.failed")) = false)
  /\ post_webhook (fails_for "payment.failed") sample_host signed
       (sample_payload "payment.failed") init
     = ({| http_status := 200;
           body := Webhook_ok true "Webhook received and processed" |},
        {| queue := [sample_item "payment.failed" 1];
           processedEvents := [];
           console := [Log_processing "payment.failed";
                       Err_failed "payment.failed" 1] |}).
Proof.
  assert (admitted sample_host signed (sample_payload "payment.failed") = true)
    as Hadm by (vm_compute; reflexivity).
  split; [split; [exact Hadm|split; reflexivity]|].
  exact (failed_webhook_is_acknowledged (fails_for "payment.failed") sample_host
           signed (sample_payload "payment.failed") init Hadm eq_refl eq_refl).
Defined.

(** ** What a delivery failure comes to *)








